(** * Qwik cookbook [PopupManager] and the CLI [joke] command

    Two small units of the repository are embedded here:

    - [packages/docs/src/routes/docs/cookbook/modal/index.mdx], the
      [popup-manager.tsx] listing: a signal holding the optional active
      popup, the [show]/[hide] API published through a context, and the
      JSX the component returns;
    - [packages/qwik/src/cli/joke/run-joke-command.ts]: [runJokeCommand].

    JavaScript strings are sequences of UTF-16 code units, property bags are
    finite maps from property names to values, and an exception is an
    abrupt completion. *)

From stdpp Require Import gmap strings list fin_maps.

Set Warnings "-register-all".

(** ** PopupManager *)

Module PopupManager.

Section Popup.

(** [Component<any>]: an opaque reference to a renderable unit, and the
    values stored in a property bag. *)
Variable ComponentRef : Type.
Variable PropValue : Type.

(** A property bag: a JavaScript object used as a map from names to
    values. *)
Local Abbreviation Props := (gmap string PropValue).

(** The payload of the signal: [{ Component: Component<any>; props: any }]. *)
Record Modal : Type := mkModal { Component : ComponentRef; props : Props }.

(** [const modal = useSignal<{...}>()]: the signal's [value], [undefined]
    (here [None]) until something is shown. *)
Record Signal : Type := mkSignal { value : option Modal }.

Definition useSignal : Signal := {| value := None |}.

(** [show: $((component, props) => { modal.value = { Component: component, props }; })] *)
Definition show (component : ComponentRef) (p : Props) (modal : Signal) : Signal :=
  {| value := Some {| Component := component; props := p |} |}.

(** [hide: $(() => { modal.value = undefined; })] *)
Definition hide (modal : Signal) : Signal :=
  {| value := None |}.

(** The JSX a render function returns.  [<Slot />] is the framework's
    projection point, [JSXComponent C p] is [<C {...p} />], and
    [JSXUndefined] is a falsy child, which renders nothing. *)
Inductive JSXNode : Type :=
| JSXFragment (children : list JSXNode)
| JSXSlot
| JSXElement (tag : string) (attrs : list (string * string)) (children : list JSXNode)
| JSXComponent (C : ComponentRef) (p : Props)
| JSXUndefined.

(** Object spread [{...o}]: a fresh object receiving every own property of
    [o], one by one. *)
Definition spread (o : Props) : Props :=
  list_to_map (map_to_list o).

(** The value returned by the component function of [PopupManager]:
    [<><Slot />{modal.value && (<div class="modal"><modal.value.Component {...modal.value.props} /></div>)}</>].
    An object is truthy, so [a && b] is [b] when the signal holds a popup
    and [undefined] otherwise. *)
Definition render (modal : Signal) : JSXNode :=
  JSXFragment
    [ JSXSlot;
      match value modal with
      | Some m =>
          JSXElement "div" [("class", "modal")]
            [ JSXComponent (Component m) (spread (props m)) ]
      | None => JSXUndefined
      end ].

(** Every component invocation occurring in a JSX tree, in document
    order, with the props it receives. *)
Fixpoint instances (n : JSXNode) : list (ComponentRef * Props) :=
  match n with
  | JSXFragment children => flat_map instances children
  | JSXSlot => []
  | JSXElement _ _ children => flat_map instances children
  | JSXComponent C p => [(C, p)]
  | JSXUndefined => []
  end.

(** The overlay elements ([<div class="modal">]) of a JSX tree, each with
    the component invocations it encloses. *)
Definition is_overlay (tag : string) (attrs : list (string * string)) : bool :=
  bool_decide (tag = "div") && bool_decide (("class", "modal") ∈ attrs).

Fixpoint overlays (n : JSXNode) : list (list (ComponentRef * Props)) :=
  match n with
  | JSXFragment children => flat_map overlays children
  | JSXSlot => []
  | JSXElement tag attrs children =>
      (if is_overlay tag attrs
       then [flat_map instances children] else [])
      ++ flat_map overlays children
  | JSXComponent _ _ => []
  | JSXUndefined => []
  end.

(** What a consumer of the context can do to the manager. *)
Inductive Call : Type :=
| CallShow (component : ComponentRef) (p : Props)
| CallHide.

Definition call (c : Call) (modal : Signal) : Signal :=
  match c with
  | CallShow component p => show component p modal
  | CallHide => hide modal
  end.

(** A sequence of calls, oldest first. *)
Definition calls (cs : list Call) (modal : Signal) : Signal :=
  foldl (fun m c => call c m) modal cs.

(** The popups a signal holds. *)
Definition active (modal : Signal) : list Modal :=
  match value modal with
  | Some m => [m]
  | None => []
  end.

(** The invariant of the data model: at most one popup is active. *)
Definition at_most_one (modal : Signal) : Prop :=
  length (active modal) <= 1.

#[global] Instance at_most_one_dec (modal : Signal) : Decision (at_most_one modal).
Proof. unfold at_most_one. apply _. Defined.

End Popup.

Arguments mkModal {ComponentRef PropValue}.
Arguments Component {ComponentRef PropValue}.
Arguments props {ComponentRef PropValue}.
Arguments mkSignal {ComponentRef PropValue}.
Arguments value {ComponentRef PropValue}.
Arguments useSignal {ComponentRef PropValue}.
Arguments show {ComponentRef PropValue}.
Arguments hide {ComponentRef PropValue}.
Arguments JSXFragment {ComponentRef PropValue}.
Arguments JSXSlot {ComponentRef PropValue}.
Arguments JSXElement {ComponentRef PropValue}.
Arguments JSXComponent {ComponentRef PropValue}.
Arguments JSXUndefined {ComponentRef PropValue}.
Arguments spread {PropValue}.
Arguments render {ComponentRef PropValue}.
Arguments instances {ComponentRef PropValue}.
Arguments overlays {ComponentRef PropValue}.
Arguments CallShow {ComponentRef PropValue}.
Arguments CallHide {ComponentRef PropValue}.
Arguments call {ComponentRef PropValue}.
Arguments calls {ComponentRef PropValue}.
Arguments active {ComponentRef PropValue}.
Arguments at_most_one {ComponentRef PropValue}.

End PopupManager.

(** ** The joke command *)

Module Joke.

(** A JavaScript string is a sequence of 16-bit code units. *)
Definition JSString : Type := list N.

(** The code units of a literal made of ASCII characters only. *)
Definition lit (s : string) : JSString :=
  Ascii.N_of_ascii <$> String.list_ascii_of_string s.

(** ECMAScript [WhiteSpace] and [LineTerminator] code points, which is what
    [String.prototype.trim] strips: TAB, LF, VT, FF, CR, SP, NBSP, the
    [Space_Separator] category, LS, PS and the byte order mark.  All of them
    lie in the basic plane, so a test per code unit is exact. *)
Definition isWhiteSpace (c : N) : bool :=
  ((0x0009 <=? c) && (c <=? 0x000D)
   || (c =? 0x0020) || (c =? 0x00A0) || (c =? 0x1680)
   || (0x2000 <=? c) && (c <=? 0x200A)
   || (c =? 0x2028) || (c =? 0x2029) || (c =? 0x202F)
   || (c =? 0x205F) || (c =? 0x3000) || (c =? 0xFEFF))%N.

(** [String.prototype.trimStart], [trimEnd] and [trim]. *)
Fixpoint trimStart (s : JSString) : JSString :=
  match s with
  | [] => []
  | c :: rest => if isWhiteSpace c then trimStart rest else s
  end.

Definition trimEnd (s : JSString) : JSString :=
  reverse (trimStart (reverse s)).

Definition trim (s : JSString) : JSString :=
  trimEnd (trimStart s).

(** What trimming means: [t] is [s] without a leading and a trailing run of
    white space, and [t] neither starts nor ends with white space. *)
Definition strips (s t : JSString) : Prop :=
  exists pre post : JSString,
    s = pre ++ t ++ post /\
    Forall (fun c => isWhiteSpace c = true) pre /\
    Forall (fun c => isWhiteSpace c = true) post /\
    (isWhiteSpace <$> head t) <> Some true /\
    (isWhiteSpace <$> last t) <> Some true.

(** How a call ends: with a value, or by throwing. *)
Inductive JSError : Type :=
| TypeError.

Inductive Completion (A : Type) : Type :=
| Normal (a : A)
| Throw (e : JSError).

Arguments Normal {A}.
Arguments Throw {A}.

(** Sequencing: the first abrupt completion ends the evaluation. *)
#[global] Instance Completion_ret : MRet Completion :=
  fun A a => Normal a.

#[global] Instance Completion_bind : MBind Completion :=
  fun A B k c =>
    match c with
    | Normal a => k a
    | Throw e => Throw e
    end.

(** A part of a joke entry as the command receives it.  The command writes
    [setup!] and [punchline!]: the parts are typed as possibly missing, so a
    part is a string, [null] or [undefined]. *)
Inductive Part : Type :=
| PartString (s : JSString)
| PartNull
| PartUndefined.

Definition isString (p : Part) : bool :=
  match p with
  | PartString _ => true
  | PartNull | PartUndefined => false
  end.

(** A joke entry: the pair (setup, punchline). *)
Definition Entry : Type := (Part * Part)%type.

(** An entry with both parts present. *)
Definition complete (e : Entry) : bool :=
  isString (fst e) && isString (snd e).

(** The method call [p!.trim()].  The [!] is a compile-time assertion and
    leaves no trace in the running code: reading [trim] off [null] or
    [undefined] throws a [TypeError]. *)
Definition callTrim (p : Part) : Completion JSString :=
  match p with
  | PartString s => Normal (trim s)
  | PartNull | PartUndefined => Throw TypeError
  end.

(** Modelled from the spec: [getRandomJoke] and the joke list it reads,
    which live in the [create-qwik] package.  The spec has it select one
    entry uniformly at random from a fixed in-memory list and return its two
    parts.  The random choice is the argument [draw], an index
    into the list; where the list has no such index the result is
    [undefined] ([None]). *)
Definition getRandomJoke (jokes : list Entry) (draw : nat) : option Entry :=
  jokes !! draw.

(** Modelled from the spec: the outcomes of the random choice made by
    [getRandomJoke], all equally likely: one per position of the list. *)
Definition draws (jokes : list Entry) : list nat :=
  seq 0 (length jokes).

(** The code units of one code point: itself in the basic plane, a
    surrogate pair above it. *)
Definition utf16 (cp : N) : JSString :=
  (if cp <? 0x10000 then [cp]
   else [0xD800 + N.shiftr (cp - 0x10000) 10;
         0xDC00 + N.land (cp - 0x10000) 0x3FF])%N.

(** The joke list of the end-to-end example: a single entry. *)
Definition chicken : list Entry :=
  [ (PartString (lit "Why did the chicken cross the road?"),
     PartString (lit "To get to the other side.")) ].

(** The title given to [note], the see-no-evil monkey U+1F648. *)
Definition glyph : JSString := utf16 0x1F648%N.

(** The line feed of the template literal. *)
Definition LF : N := 0x000A%N.

Section Command.

(** [magenta] of [kleur/colors] and [note] of [../utils/utils] are imported:
    [magenta s] is the coloured form of [s], and [note message title] is the
    text that the call writes to standard output. *)
Variable magenta : JSString -> JSString.
Variable note : JSString -> JSString -> JSString.

(** The fixed joke list. *)
Variable jokes : list Entry.

(** [const [setup, punchline] = getRandomJoke();
     note(magenta(`${setup!.trim()}\n${punchline!.trim()}`), '🙈');]
    The random choice and the text already on standard output are explicit.
    Destructuring [undefined] throws a [TypeError]; the template literal
    evaluates [setup!.trim()], then [punchline!.trim()], and only then are
    [magenta] and [note] called. *)
Definition runJokeCommand (draw : nat) (stdout : JSString) : Completion JSString :=
  match getRandomJoke jokes draw with
  | None => Throw TypeError
  | Some (setup, punchline) =>
      s ← callTrim setup;
      p ← callTrim punchline;
      Normal (stdout ++ note (magenta (s ++ [LF] ++ p)) glyph)
  end.

End Command.

End Joke.

(** * Properties *)

Import PopupManager.
Import Joke.

(** ** PopupManager *)

Section PopupManagerSpec.

Context {ComponentRef PropValue : Type}.

Implicit Types (C : ComponentRef) (P : gmap string PropValue).
Implicit Types (modal : Signal ComponentRef PropValue).

(** Spreading a property bag yields a bag with the same properties. *)
Lemma spread_id P : spread P = P.
Proof. unfold spread. apply list_to_map_to_list. Qed.

Lemma render_shown C P :
  render (mkSignal (Some (mkModal C P))) =
  JSXFragment
    [ JSXSlot;
      JSXElement "div" [("class", "modal")%string] [ JSXComponent C P ] ].
Proof. unfold render; simpl. by rewrite spread_id. Qed.

Lemma render_hidden :
  render (mkSignal None) =
  JSXFragment [ JSXSlot; @JSXUndefined ComponentRef PropValue ].
Proof. reflexivity. Qed.

Lemma instances_shown C P modal :
  instances (render (show C P modal)) = [(C, P)].
Proof.
  change (show C P modal) with (mkSignal (Some (mkModal C P))).
  by rewrite render_shown.
Qed.

Lemma calls_snoc cs c modal :
  calls (cs ++ [c]) modal = call c (calls cs modal).
Proof. unfold calls. by rewrite foldl_app. Qed.

(** C1. After [show C P], whatever the signal held, the signal holds
    [(C, P)]; the JSX then returned is the slot followed by the overlay
    [div] around [C] invoked with [P]; so the output has exactly one
    component instance, [C] with props [P], and it sits inside the one
    overlay. *)
Theorem show_renders_one_instance C P modal :
  value (show C P modal) = Some (mkModal C P) /\
  render (show C P modal) =
    JSXFragment
      [ JSXSlot;
        JSXElement "div" [("class", "modal")%string] [ JSXComponent C P ] ] /\
  instances (render (show C P modal)) = [(C, P)] /\
  overlays (render (show C P modal)) = [[(C, P)]].
Proof.
  split; [reflexivity|].
  assert (Hshow : show C P modal = mkSignal (Some (mkModal C P))) by reflexivity.
  rewrite Hshow, render_shown. by repeat split.
Qed.

(** C2. After [hide], whatever the signal held (the initial state, a state
    left by [show C P], or the state after any sequence of calls), the
    signal is empty and the output has no component instance and no
    overlay. *)
Theorem hide_renders_no_instance C P cs modal :
  value (hide modal) = None /\
  instances (render (hide modal)) = [] /\
  overlays (render (hide modal)) = [] /\
  instances (render (hide (show C P modal))) = [] /\
  instances (render (hide (calls cs modal))) = [].
Proof. by repeat split. Qed.

(** C3. [hide] on an empty signal leaves it as it is, and two [hide] in a
    row give the state that one gives, the empty one, from any state.
    [hide] is a total function: it has no way to raise. *)
Theorem hide_idempotent modal :
  hide (mkSignal None) = mkSignal (@None (Modal ComponentRef PropValue)) /\
  hide (hide modal) = hide modal /\
  value (hide (hide modal)) = None /\
  render (hide (hide modal)) = render (hide modal).
Proof. by repeat split. Qed.

(** C4. [show C' P'] on a signal that holds [(C, P)] leaves exactly
    [(C', P')]: the signal's value, its list of active popups and the
    component instances of the output hold [(C', P')] alone. *)
Theorem show_last_writer_wins C P C' P' :
  value (show C' P' (mkSignal (Some (mkModal C P)))) = Some (mkModal C' P') /\
  active (show C' P' (mkSignal (Some (mkModal C P)))) = [mkModal C' P'] /\
  instances (render (show C' P' (mkSignal (Some (mkModal C P))))) = [(C', P')] /\
  show C' P' (show C P (mkSignal None)) = show C' P' (mkSignal None).
Proof.
  split; [reflexivity|]. split; [reflexivity|]. split; [|reflexivity].
  apply instances_shown.
Qed.

Lemma at_most_one_any modal : at_most_one modal.
Proof. destruct modal as [[m|]]; unfold at_most_one; simpl; lia. Qed.

Lemma render_instances_le modal : length (instances (render modal)) <= 1.
Proof. destruct modal as [[m|]]; simpl; lia. Qed.

Lemma render_overlays_le modal : length (overlays (render modal)) <= 1.
Proof. destruct modal as [[m|]]; simpl; lia. Qed.

(** C5. At most one popup is active: [show] and [hide] take a signal with
    at most one active popup to one with at most one, and so does any
    sequence of calls, after which the output has at most one component
    instance and at most one overlay. *)
Theorem at_most_one_preserved C P cs modal :
  at_most_one modal ->
  at_most_one (show C P modal) /\
  at_most_one (hide modal) /\
  at_most_one (calls cs modal) /\
  length (instances (render (calls cs modal))) <= 1 /\
  length (overlays (render (calls cs modal))) <= 1.
Proof.
  intros _. repeat split.
  - unfold at_most_one; simpl; lia.
  - unfold at_most_one; simpl; lia.
  - induction cs as [|c cs IH] using rev_ind.
    + apply at_most_one_any.
    + rewrite calls_snoc. destruct c; unfold at_most_one; simpl; lia.
  - apply render_instances_le.
  - apply render_overlays_le.
Qed.

End PopupManagerSpec.

Lemma at_most_one_preserved_witness :
  at_most_one (@useSignal nat nat) /\
  (at_most_one (show 7 {[ "name" := 1 ]} useSignal) /\
   at_most_one (hide (@useSignal nat nat)) /\
   at_most_one (calls [CallShow 7 {[ "name" := 1 ]}; CallHide; CallShow 8 ∅] useSignal) /\
   length (instances (render (calls [CallShow 7 {[ "name" := 1 ]}; CallHide; CallShow 8 ∅] useSignal))) <= 1 /\
   length (overlays (render (calls [CallShow 7 {[ "name" := 1 ]}; CallHide; CallShow 8 ∅] useSignal))) <= 1).
Proof.
  split.
  - unfold at_most_one; simpl; lia.
  - apply (at_most_one_preserved 7 {[ "name" := 1 ]}
             [CallShow 7 {[ "name" := 1 ]}; CallHide; CallShow 8 ∅] useSignal).
    unfold at_most_one; simpl; lia.
Defined.

(** ** String.prototype.trim *)

Example isWhiteSpace_yes :
  forallb isWhiteSpace
    [0x09; 0x0A; 0x0B; 0x0C; 0x0D; 0x20; 0xA0; 0x1680; 0x2000; 0x200A;
     0x2028; 0x2029; 0x202F; 0x205F; 0x3000; 0xFEFF]%N = true.
Proof. reflexivity. Qed.

Example isWhiteSpace_no :
  existsb isWhiteSpace
    [0x00; 0x08; 0x0E; 0x1F; 0x21; 0x85; 0x180E; 0x1FFF; 0x200B; 0x2060;
     0xD83D; 0xDE48; 0xFFFE]%N = false.
Proof. reflexivity. Qed.

Example trim_both_ends :
  trim (lit "  a b ") = lit "a b" /\ trim (lit "   ") = [] /\
  trim ([0xFEFF; 0x000A]%N ++ lit "x" ++ [0x3000; 0x000D]%N) = lit "x".
Proof. by repeat split. Qed.

Example glyph_units : glyph = [0xD83D; 0xDE48]%N.
Proof. reflexivity. Qed.

Section Trim.

Implicit Types (s t pre post : JSString) (c : N).

Local Abbreviation ws := (fun c => isWhiteSpace c = true).

Lemma trimStart_prefix s :
  exists pre, s = pre ++ trimStart s /\ Forall ws pre.
Proof.
  induction s as [|c s (pre & Heq & Hpre)]; simpl.
  - by exists [].
  - destruct (isWhiteSpace c) eqn:Hc.
    + exists (c :: pre). split; [simpl; congruence | by constructor].
    + by exists [].
Qed.

Lemma trimStart_head s : (isWhiteSpace <$> head (trimStart s)) <> Some true.
Proof.
  induction s as [|c s IH]; simpl; [done|].
  destruct (isWhiteSpace c) eqn:Hc; [done|]. simpl. by rewrite Hc.
Qed.

Lemma trimStart_skip pre s : Forall ws pre -> trimStart (pre ++ s) = trimStart s.
Proof. induction 1 as [|c pre Hc _ IH]; simpl; [done|]. by rewrite Hc. Qed.

Lemma trimStart_stop s :
  (isWhiteSpace <$> head s) <> Some true -> trimStart s = s.
Proof.
  destruct s as [|c s]; simpl; [done|].
  destruct (isWhiteSpace c); [by intros []|done].
Qed.

Lemma trimStart_all s : Forall ws s -> trimStart s = [].
Proof. intros Hs. rewrite <- (app_nil_r s). by rewrite trimStart_skip. Qed.

Lemma trimEnd_suffix s :
  exists post, s = trimEnd s ++ post /\ Forall ws post.
Proof.
  destruct (trimStart_prefix (reverse s)) as (pre & Heq & Hpre).
  exists (reverse pre). split.
  - unfold trimEnd. rewrite <- reverse_app, <- Heq. by rewrite reverse_involutive.
  - by apply Forall_reverse.
Qed.

Lemma trimEnd_last s : (isWhiteSpace <$> last (trimEnd s)) <> Some true.
Proof. unfold trimEnd. rewrite last_reverse. apply trimStart_head. Qed.

Lemma trimEnd_head s :
  (isWhiteSpace <$> head s) <> Some true ->
  (isWhiteSpace <$> head (trimEnd s)) <> Some true.
Proof.
  intros Hs. destruct (trimEnd_suffix s) as (post & Heq & _).
  destruct (trimEnd s) as [|c t]; [done|].
  rewrite Heq in Hs. exact Hs.
Qed.

(** [trim] meets its description. *)
Lemma trim_strips s : strips s (trim s).
Proof.
  destruct (trimStart_prefix s) as (pre & Hpre & Hws).
  destruct (trimEnd_suffix (trimStart s)) as (post & Hpost & Hws').
  exists pre, post. unfold trim. repeat split; try done.
  - by rewrite <- Hpost.
  - apply trimEnd_head, trimStart_head.
  - apply trimEnd_last.
Qed.

(** The description fits no other string. *)
Lemma strips_trim s t : strips s t -> t = trim s.
Proof.
  intros (pre & post & -> & Hpre & Hpost & Hhead & Hlast).
  unfold trim. rewrite trimStart_skip by done.
  destruct t as [|c t].
  - simpl. by rewrite trimStart_all.
  - rewrite trimStart_stop by done.
    unfold trimEnd. rewrite reverse_app.
    rewrite trimStart_skip by (by apply Forall_reverse).
    rewrite trimStart_stop by (by rewrite head_reverse).
    by rewrite reverse_involutive.
Qed.

End Trim.

(** ** The joke selector *)

Section Selector.

Implicit Types (jokes : list Entry) (joke : Entry) (draw : nat).

Lemma elem_of_draws jokes draw : draw ∈ draws jokes <-> draw < length jokes.
Proof. unfold draws. rewrite elem_of_seq. lia. Qed.

Lemma getRandomJoke_defined jokes draw :
  draw ∈ draws jokes ->
  exists joke, getRandomJoke jokes draw = Some joke /\ joke ∈ jokes.
Proof.
  intros Hdraw%elem_of_draws.
  destruct (lookup_lt_is_Some_2 jokes draw Hdraw) as [joke Hjoke].
  exists joke. split; [exact Hjoke|]. by eapply list_elem_of_lookup_2.
Qed.

(** C6. Whatever the number of calls, with one random draw each, every call
    returns an entry, and that entry is an element of the joke list. *)
Theorem getRandomJoke_from_list jokes (ds : list nat) :
  Forall (fun draw => draw ∈ draws jokes) ds ->
  length (getRandomJoke jokes <$> ds) = length ds /\
  Forall (fun r => exists joke, r = Some joke /\ joke ∈ jokes)
         (getRandomJoke jokes <$> ds).
Proof.
  intros Hds. split; [apply length_fmap|].
  apply Forall_fmap. eapply Forall_impl; [exact Hds|].
  intros draw Hdraw. simpl. by apply getRandomJoke_defined.
Qed.

(** C7. No entry is unreachable: every element of the joke list is what the
    selector returns on some draw.  The draws are equally likely, no draw
    occurs twice among them, and going through them the selector returns the
    list itself, each position once: every entry is as likely as any other. *)
Theorem getRandomJoke_uniform jokes :
  (forall joke, joke ∈ jokes ->
     exists draw, draw ∈ draws jokes /\ getRandomJoke jokes draw = Some joke) /\
  NoDup (draws jokes) /\
  length (draws jokes) = length jokes /\
  getRandomJoke jokes <$> draws jokes = Some <$> jokes.
Proof.
  repeat split.
  - intros joke [draw Hdraw]%list_elem_of_lookup_1.
    exists draw. split; [|exact Hdraw].
    apply elem_of_draws. by eapply lookup_lt_Some.
  - apply NoDup_seq.
  - apply length_seq.
  - apply list_eq. intros i. unfold draws, getRandomJoke.
    rewrite !list_lookup_fmap.
    destruct (decide (i < length jokes)) as [Hi|Hi].
    + rewrite lookup_seq_lt by done. simpl.
      destruct (lookup_lt_is_Some_2 jokes i Hi) as [joke Hjoke].
      by rewrite Hjoke.
    + rewrite lookup_seq_ge by lia.
      by rewrite lookup_ge_None_2 by lia.
Qed.

End Selector.

Lemma getRandomJoke_from_list_witness :
  Forall (fun draw => draw ∈ draws chicken) [0; 0; 0] /\
  (length (getRandomJoke chicken <$> [0; 0; 0]) = length [0; 0; 0] /\
   Forall (fun r => exists joke, r = Some joke /\ joke ∈ chicken)
          (getRandomJoke chicken <$> [0; 0; 0])).
Proof.
  assert (H : Forall (fun draw => draw ∈ draws chicken) [0; 0; 0]).
  { repeat constructor. }
  split; [exact H|].
  exact (getRandomJoke_from_list chicken [0; 0; 0] H).
Defined.

(** ** runJokeCommand *)

Section CommandSpec.

Variable magenta : JSString -> JSString.
Variable note : JSString -> JSString -> JSString.

Implicit Types (jokes : list Entry) (draw : nat) (stdout setup punchline : JSString).

Lemma runJokeCommand_selected jokes draw stdout setup punchline :
  getRandomJoke jokes draw = Some (PartString setup, PartString punchline) ->
  runJokeCommand magenta note jokes draw stdout =
  Normal (stdout ++ note (magenta (trim setup ++ [LF] ++ trim punchline)) glyph).
Proof. intros Hjoke. unfold runJokeCommand. by rewrite Hjoke. Qed.

(** C8. With the chicken joke as the only entry, every draw makes the
    selector return that pair, and the command completes having written what
    [note] writes for the message "Why did the chicken cross the road?", a
    line feed, "To get to the other side." (coloured by [magenta]) under the
    title U+1F648, the pair of code units D83D DE48. *)
Theorem runJokeCommand_chicken draw stdout :
  draw ∈ draws chicken ->
  getRandomJoke chicken draw =
    Some (PartString (lit "Why did the chicken cross the road?"),
          PartString (lit "To get to the other side.")) /\
  runJokeCommand magenta note chicken draw stdout =
    Normal (stdout ++
            note (magenta (lit "Why did the chicken cross the road?"
                           ++ [0x000A%N]
                           ++ lit "To get to the other side."))
                 [0xD83D; 0xDE48]%N).
Proof.
  intros Hdraw%elem_of_draws. simpl in Hdraw.
  assert (draw = 0) as -> by lia.
  split; reflexivity.
Qed.

(** The command completes normally on every draw of the sample space when
    every entry of the list has both parts. *)
Lemma runJokeCommand_total jokes draw stdout :
  Forall (fun e => complete e = true) jokes ->
  draw ∈ draws jokes ->
  exists out, runJokeCommand magenta note jokes draw stdout = Normal out.
Proof.
  intros Hall (joke & Hjoke & Hin)%getRandomJoke_defined.
  rewrite Forall_forall in Hall. specialize (Hall joke Hin).
  destruct joke as [[setup| |] [punchline| |]]; try done.
  rewrite (runJokeCommand_selected _ _ _ _ _ Hjoke). by eexists.
Qed.


(** C10. For every pair (setup, punchline) the selector returns, the message
    handed to [note] is [trim setup], a line feed, [trim punchline], where
    [trim] strips the leading and the trailing white space of its argument
    and nothing else. *)
Theorem runJokeCommand_trims jokes draw stdout setup punchline :
  getRandomJoke jokes draw = Some (PartString setup, PartString punchline) ->
  runJokeCommand magenta note jokes draw stdout =
    Normal (stdout ++ note (magenta (trim setup ++ [LF] ++ trim punchline)) glyph) /\
  strips setup (trim setup) /\
  strips punchline (trim punchline).
Proof.
  intros Hjoke. split; [by apply runJokeCommand_selected|].
  split; apply trim_strips.
Qed.

End CommandSpec.

(** The raw strings are not what is printed: white space around either part
    is gone from the message. *)
Example runJokeCommand_trims_padding :
  runJokeCommand (fun s => s) (fun message title => title ++ message)
                 [(PartString (lit "  Knock knock. "),
                   PartString (lit " Who is there?  "))] 0 [] =
  Normal (glyph ++ lit "Knock knock." ++ [LF] ++ lit "Who is there?").
Proof. reflexivity. Qed.

(** The command throws when the selector has no entry to return. *)
Example runJokeCommand_no_entry :
  runJokeCommand (fun s => s) (fun message title => title ++ message) [] 0 [] =
  Throw TypeError.
Proof. reflexivity. Qed.

Lemma runJokeCommand_chicken_witness :
  0 ∈ draws chicken /\
  (getRandomJoke chicken 0 =
     Some (PartString (lit "Why did the chicken cross the road?"),
           PartString (lit "To get to the other side.")) /\
   runJokeCommand (fun s => s) (fun message title => title ++ message) chicken 0 [] =
     Normal ([] ++ ([0xD83D; 0xDE48]%N ++
                    (lit "Why did the chicken cross the road?"
                     ++ [0x000A%N]
                     ++ lit "To get to the other side.")))).
Proof.
  assert (H : 0 ∈ draws chicken) by (vm_compute; constructor).
  split; [exact H|].
  exact (runJokeCommand_chicken (fun s => s) (fun message title => title ++ message) 0 [] H).
Defined.

Lemma runJokeCommand_trims_witness :
  getRandomJoke [(PartString (lit "  Knock knock. "),
                  PartString (lit " Who is there?  "))] 0 =
    Some (PartString (lit "  Knock knock. "), PartString (lit " Who is there?  ")) /\
  (runJokeCommand (fun s => s) (fun message title => title ++ message)
                  [(PartString (lit "  Knock knock. "),
                    PartString (lit " Who is there?  "))] 0 [] =
     Normal ([] ++ (glyph ++ (trim (lit "  Knock knock. ") ++ [LF]
                              ++ trim (lit " Who is there?  ")))) /\
   strips (lit "  Knock knock. ") (trim (lit "  Knock knock. ")) /\
   strips (lit " Who is there?  ") (trim (lit " Who is there?  "))).
Proof.
  split; [reflexivity|].
  exact (runJokeCommand_trims (fun s => s) (fun message title => title ++ message)
           [(PartString (lit "  Knock knock. "),
             PartString (lit " Who is there?  "))] 0 []
           (lit "  Knock knock. ") (lit " Who is there?  ") eq_refl).
Defined.

(** * Further properties *)

(** ** PopupManager: call sequences and the rendered tree *)

Section PopupManagerMore.

Context {ComponentRef PropValue : Type}.

Implicit Types (C : ComponentRef) (P : gmap string PropValue).
Implicit Types (modal : Signal ComponentRef PropValue).
Implicit Types (cs : list (Call ComponentRef PropValue)).

(** X1. The manager keeps no history.  After a sequence of calls its state
    is the one the last call alone produces from the initial signal; with no
    call at all the state is untouched.  So [hide] never brings an earlier
    popup back, and nothing is queued behind the popup on display. *)
Theorem calls_last cs modal :
  calls cs modal =
  match last cs with
  | Some c => call c useSignal
  | None => modal
  end.
Proof.
  destruct cs as [|c0 cs] using rev_ind; [reflexivity|].
  rewrite calls_snoc, last_snoc. by destruct c0.
Qed.

(** X2. The rendered tree determines the state: two signals that render to
    the same JSX are the same signal, component and property bag included. *)
Theorem render_inj modal modal' :
  render modal = render modal' -> modal = modal'.
Proof.
  destruct modal as [[[C P]|]], modal' as [[[C' P']|]];
    unfold render; simpl; intros Heq; try done.
  rewrite !spread_id in Heq. by simplify_eq.
Qed.

(** X3. The component instances of the rendered tree are the active popups,
    each with its own component and properties; every one of them lies
    inside an overlay, and there are as many overlays as active popups. *)
Theorem render_shows_active modal :
  instances (render modal) = (fun m => (Component m, props m)) <$> active modal /\
  concat (overlays (render modal)) = instances (render modal) /\
  length (overlays (render modal)) = length (active modal).
Proof.
  destruct modal as [[[C P]|]]; unfold render, active; simpl; [|done].
  by rewrite spread_id.
Qed.

End PopupManagerMore.

Lemma render_inj_witness :
  render (show 7 {[ "name" := 1 ]} (@useSignal nat nat)) =
    render (show 7 {[ "name" := 1 ]} (hide (show 8 ∅ useSignal))) /\
  show 7 {[ "name" := 1 ]} (@useSignal nat nat) =
    show 7 {[ "name" := 1 ]} (hide (show 8 ∅ useSignal)).
Proof.
  assert (H : render (show 7 {[ "name" := 1 ]} (@useSignal nat nat)) =
              render (show 7 {[ "name" := 1 ]} (hide (show 8 ∅ useSignal))))
    by reflexivity.
  split; [exact H|].
  exact (render_inj _ _ H).
Defined.

(** ** trim at the ends of a string *)

Section TrimMore.

Implicit Types (s t pre post : JSString).

Local Abbreviation ws := (fun c => isWhiteSpace c = true).

(** White space put around a string is gone after [trim]. *)
Lemma trim_padding pre s post :
  Forall ws pre -> Forall ws post -> trim (pre ++ s ++ post) = trim s.
Proof.
  intros Hpre Hpost. symmetry. apply strips_trim.
  pose proof (trim_strips s) as Hs. remember (trim s) as t eqn:Et. clear Et.
  destruct Hs as (a & b & -> & Ha & Hb & Hhead & Hlast).
  exists (pre ++ a), (b ++ post). repeat split; try done.
  - by rewrite <- !(assoc_L (++)).
  - by apply Forall_app.
  - by apply Forall_app.
Qed.

(** A string with no white space at either end is left as it is. *)
Lemma trim_clean s :
  (isWhiteSpace <$> head s) <> Some true ->
  (isWhiteSpace <$> last s) <> Some true ->
  trim s = s.
Proof.
  intros Hhead Hlast. symmetry. apply strips_trim.
  exists [], []. repeat split; try done. by rewrite app_nil_r.
Qed.

(** A string of white space only, the empty one included, trims to the
    empty string, and no other string does. *)
Lemma trim_nil s : trim s = [] <-> Forall ws s.
Proof.
  split.
  - intros Hnil. destruct (trim_strips s) as (pre & post & Heq & Hpre & Hpost & _).
    rewrite Hnil in Heq. rewrite Heq. by apply Forall_app.
  - intros Hs. unfold trim. by rewrite trimStart_all.
Qed.

Lemma trim_length s : length (trim s) <= length s.
Proof.
  destruct (trim_strips s) as (pre & post & Heq & _).
  rewrite Heq at 2. rewrite !length_app. lia.
Qed.

(** X7. Trimming twice is trimming once, the result is never longer than
    the string, and it is empty exactly when the string has nothing but
    white space. *)
Theorem trim_idempotent s :
  trim (trim s) = trim s /\
  length (trim s) <= length s /\
  (trim s = [] <-> Forall (fun c => isWhiteSpace c = true) s).
Proof.
  split; [|split; [apply trim_length | apply trim_nil]].
  destruct (trim_strips s) as (pre & post & Heq & Hpre & Hpost & _).
  rewrite Heq at 2. by rewrite trim_padding.
Qed.

End TrimMore.

(** ** runJokeCommand: padding, clean entries, blank entries, failure *)

Section CommandMore.

Variable magenta : JSString -> JSString.
Variable note : JSString -> JSString -> JSString.

Implicit Types (jokes : list Entry) (draw : nat).
Implicit Types (stdout setup punchline pre post : JSString).

Local Abbreviation ws := (fun c => isWhiteSpace c = true).

(** X4. White space around the setup or the punchline of an entry does not
    show: an entry padded with white space at either end of either part
    makes the command write what the entry without the padding does. *)
Theorem runJokeCommand_padding
    jokes draw jokes' draw' stdout setup punchline pre post pre' post' :
  Forall ws pre -> Forall ws post -> Forall ws pre' -> Forall ws post' ->
  getRandomJoke jokes draw =
    Some (PartString (pre ++ setup ++ post), PartString (pre' ++ punchline ++ post')) ->
  getRandomJoke jokes' draw' = Some (PartString setup, PartString punchline) ->
  runJokeCommand magenta note jokes draw stdout =
  runJokeCommand magenta note jokes' draw' stdout.
Proof.
  intros Hpre Hpost Hpre' Hpost' Hpadded Hplain.
  rewrite (runJokeCommand_selected _ _ _ _ _ _ _ Hpadded).
  rewrite (runJokeCommand_selected _ _ _ _ _ _ _ Hplain).
  by rewrite !trim_padding.
Qed.

(** X5. An entry whose two parts neither start nor end with white space is
    written as it is, white space inside the parts included: the message is
    the setup, a line feed, the punchline. *)
Theorem runJokeCommand_verbatim jokes draw stdout setup punchline :
  getRandomJoke jokes draw = Some (PartString setup, PartString punchline) ->
  (isWhiteSpace <$> head setup) <> Some true ->
  (isWhiteSpace <$> last setup) <> Some true ->
  (isWhiteSpace <$> head punchline) <> Some true ->
  (isWhiteSpace <$> last punchline) <> Some true ->
  runJokeCommand magenta note jokes draw stdout =
  Normal (stdout ++ note (magenta (setup ++ [LF] ++ punchline)) glyph).
Proof.
  intros Hjoke Hs Hs' Hp Hp'.
  rewrite (runJokeCommand_selected _ _ _ _ _ _ _ Hjoke).
  by rewrite !trim_clean.
Qed.

(** X6. An entry whose two parts hold white space only, or nothing, does not
    make the command fail: it completes, and the message is the line feed
    alone. *)
Theorem runJokeCommand_blank jokes draw stdout setup punchline :
  getRandomJoke jokes draw = Some (PartString setup, PartString punchline) ->
  Forall ws setup -> Forall ws punchline ->
  runJokeCommand magenta note jokes draw stdout =
  Normal (stdout ++ note (magenta [LF]) glyph).
Proof.
  intros Hjoke Hs%trim_nil Hp%trim_nil.
  rewrite (runJokeCommand_selected _ _ _ _ _ _ _ Hjoke).
  by rewrite Hs, Hp.
Qed.


End CommandMore.

Lemma runJokeCommand_padding_witness :
  (Forall (fun c => isWhiteSpace c = true) (lit "  ") /\
   Forall (fun c => isWhiteSpace c = true) ([0x000A; 0x3000]%N)) /\
  getRandomJoke
    [(PartString (lit "  " ++ lit "Knock knock." ++ [0x000A; 0x3000]%N),
      PartString ([0x000A; 0x3000]%N ++ lit "Who is there?" ++ lit "  "))] 0 =
    Some (PartString (lit "  " ++ lit "Knock knock." ++ [0x000A; 0x3000]%N),
          PartString ([0x000A; 0x3000]%N ++ lit "Who is there?" ++ lit "  ")) /\
  runJokeCommand (fun s => s) (fun message title => title ++ message)
    [(PartString (lit "  " ++ lit "Knock knock." ++ [0x000A; 0x3000]%N),
      PartString ([0x000A; 0x3000]%N ++ lit "Who is there?" ++ lit "  "))] 0 [] =
  runJokeCommand (fun s => s) (fun message title => title ++ message)
    [(PartString (lit "Knock knock."), PartString (lit "Who is there?"))] 0 [].
Proof.
  assert (H1 : Forall (fun c => isWhiteSpace c = true) (lit "  "))
    by (repeat constructor).
  assert (H2 : Forall (fun c => isWhiteSpace c = true) ([0x000A; 0x3000]%N))
    by (repeat constructor).
  split; [by split|]. split; [reflexivity|].
  exact (runJokeCommand_padding (fun s => s) (fun message title => title ++ message)
           [(PartString (lit "  " ++ lit "Knock knock." ++ [0x000A; 0x3000]%N),
             PartString ([0x000A; 0x3000]%N ++ lit "Who is there?" ++ lit "  "))] 0
           [(PartString (lit "Knock knock."), PartString (lit "Who is there?"))] 0 []
           (lit "Knock knock.") (lit "Who is there?")
           (lit "  ") [0x000A; 0x3000]%N [0x000A; 0x3000]%N (lit "  ")
           H1 H2 H2 H1 eq_refl eq_refl).
Defined.

Lemma runJokeCommand_verbatim_witness :
  ((isWhiteSpace <$> head (lit "Knock  knock.")) <> Some true /\
   (isWhiteSpace <$> last (lit "Knock  knock.")) <> Some true /\
   (isWhiteSpace <$> head (lit "Who is there?")) <> Some true /\
   (isWhiteSpace <$> last (lit "Who is there?")) <> Some true) /\
  runJokeCommand (fun s => s) (fun message title => title ++ message)
    [(PartString (lit "Knock  knock."), PartString (lit "Who is there?"))] 0 [] =
  Normal ([] ++ (glyph ++ (lit "Knock  knock." ++ [LF] ++ lit "Who is there?"))).
Proof.
  assert (H1 : (isWhiteSpace <$> head (lit "Knock  knock.")) <> Some true) by done.
  assert (H2 : (isWhiteSpace <$> last (lit "Knock  knock.")) <> Some true) by done.
  assert (H3 : (isWhiteSpace <$> head (lit "Who is there?")) <> Some true) by done.
  assert (H4 : (isWhiteSpace <$> last (lit "Who is there?")) <> Some true) by done.
  split; [done|].
  exact (runJokeCommand_verbatim (fun s => s) (fun message title => title ++ message)
           [(PartString (lit "Knock  knock."), PartString (lit "Who is there?"))] 0 []
           (lit "Knock  knock.") (lit "Who is there?") eq_refl H1 H2 H3 H4).
Defined.

Lemma runJokeCommand_blank_witness :
  (Forall (fun c => isWhiteSpace c = true) (lit "  ") /\
   Forall (fun c => isWhiteSpace c = true) (@nil N)) /\
  runJokeCommand (fun s => s) (fun message title => title ++ message)
    [(PartString (lit "  "), PartString [])] 0 [] =
  Normal ([] ++ (glyph ++ [LF])).
Proof.
  assert (H1 : Forall (fun c => isWhiteSpace c = true) (lit "  "))
    by (repeat constructor).
  assert (H2 : Forall (fun c => isWhiteSpace c = true) (@nil N))
    by constructor.
  split; [by split|].
  exact (runJokeCommand_blank (fun s => s) (fun message title => title ++ message)
           [(PartString (lit "  "), PartString [])] 0 [] (lit "  ") [] eq_refl H1 H2).
Defined.
